(** * update-join/data.py : recording a sale through a psycopg2 cursor

    The program is one function, [record_sale(conn, customer, items)], run
    once against a module-level psycopg2 connection.  The embedding below
    follows the function statement by statement:

    - the three tables the two SQL strings touch ([customers], [invoices],
      [items]) are lists of rows, in insertion order;
    - a psycopg2 connection (autocommit off, the default of
      [psycopg2.connect]) together with the server session behind it is a
      record: the committed tables, the tables as the open transaction sees
      them, the transaction status, the sequence feeding [invoices.id] and
      the protocol messages sent so far;
    - Python code is a state-and-exception monad over that record: a raised
      exception keeps the effects made before it;
    - cursors are values threaded through the calls;
    - a Python [str] is a string of characters with codes below 256, the
      character of code 0 included: psycopg2 refuses to bind a parameter
      that holds it, and a [text] column cannot store it.

    Not modelled: a closed or lost connection, other sessions on the same
    server, and the 32-bit bound of a serial column. *)

From Stdlib Require Import List String Ascii ZArith Lia Bool.
Import ListNotations.

Local Open Scope Z_scope.

(** ** Strings *)

(** Does the string hold NUL (0x00)? *)
Fixpoint has_nul (s : string) : bool :=
  match s with
  | EmptyString => false
  | String a rest => Ascii.eqb a Ascii.zero || has_nul rest
  end.

(** ** Tables *)

Module Pg.

(** A stored customer name is a [text] value: it holds no NUL. *)
Record Customer := mkCustomer {
  customer_id : Z;
  customer_name : string;
  customer_name_text : has_nul customer_name = false
}.
Record Invoice := mkInvoice { invoice_id : Z; invoice_customer_id : Z }.
Record Item := mkItem { item_name : string; item_invoice_id : Z }.

Record Tables := mkTables {
  customers : list Customer;
  invoices : list Invoice;
  items : list Item
}.

Definition add_invoices (t : Tables) (rows : list Invoice) : Tables :=
  mkTables (customers t) (invoices t ++ rows) (items t).

Definition add_items (t : Tables) (rows : list Item) : Tables :=
  mkTables (customers t) (invoices t) (items t ++ rows).

End Pg.

(** A result row, as the tuple [fetchone] hands back: here always a tuple
    of integers. *)
Definition Row := list Z.

(** The two statements [record_sale] builds, with their parameters bound. *)
Inductive Query :=
| InsertInvoice (customer : string)
    (* INSERT INTO invoices (customer_id)
       SELECT id FROM customers WHERE name = %s
       RETURNING id AS invoice_id *)
| InsertItem (name : string) (invoice_id : Z).
    (* INSERT INTO items (name, invoice_id) VALUES (%s, %s) *)

(** What travels to the server. *)
Inductive Message :=
| Begin
| Commit
| Rollback
| Exec (q : Query).

Definition is_tx_end (m : Message) : bool :=
  match m with
  | Commit | Rollback => true
  | _ => false
  end.

(** psycopg2's [connection.info.transaction_status]. *)
Inductive TxStatus := IDLE | INTRANS | INERROR.

Record Connection := mkConnection {
  durable : Pg.Tables;
  pending : Pg.Tables;
  status : TxStatus;
  invoices_id_seq : Z;
  wire : list Message
}.

(** The tables a statement of this session would read. *)
Definition view (c : Connection) : Pg.Tables :=
  match status c with
  | IDLE => durable c
  | _ => pending c
  end.

(** ** Python outcomes *)

Inductive PyError :=
| TypeError                 (* builtin: None[0] *)
| IndexError                (* builtin: ()[0] *)
| ValueError                (* psycopg2: a string parameter holds NUL *)
| InterfaceError            (* psycopg2: cursor already closed *)
| ProgrammingError          (* psycopg2: no results to fetch *)
| IntegrityError            (* psycopg2: the server refused a row *)
| InFailedSqlTransaction    (* psycopg2: statement in an aborted transaction *)
| NotFoundError (what : string).
    (* the specification's domain error; nothing in data.py raises it *)

Inductive Outcome (A : Type) :=
| Returned (a : A)
| Raised (e : PyError).
Arguments Returned {A} a.
Arguments Raised {A} e.

Inductive PyValue := PyNone | PyInt (z : Z).

Definition Py (A : Type) : Type := Connection -> Outcome A * Connection.

Definition ret {A} (a : A) : Py A := fun c => (Returned a, c).

Definition raise {A} (e : PyError) : Py A := fun c => (Raised e, c).

Definition bind {A B} (m : Py A) (k : A -> Py B) : Py B :=
  fun c =>
    match m c with
    | (Returned a, c') => k a c'
    | (Raised e, c') => (Raised e, c')
    end.

Notation "x <- m ;; k" := (bind m (fun x => k))
  (at level 61, m at next level, right associativity).

(** ** The server's side of a statement *)

Definition matching (customer : string) (t : Pg.Tables) : list Pg.Customer :=
  filter (fun cu => String.eqb (Pg.customer_name cu) customer) (Pg.customers t).

(** Modelled from the spec: the declaration of [invoices] is not part of
    the source; its [id] is "assigned by the store on insert", one value of
    a sequence per inserted row. *)
Fixpoint new_invoices (seq : Z) (cs : list Pg.Customer) : list Pg.Invoice :=
  match cs with
  | [] => []
  | cu :: rest => Pg.mkInvoice seq (Pg.customer_id cu) :: new_invoices (seq + 1) rest
  end.

Section Store.

(** The declaration of [items] is not part of the source either: whether
    the server takes a row, given the tables the transaction sees, is a
    parameter. *)
Variable item_constraint : Pg.Tables -> Pg.Item -> bool.

(** [run q t seq]: the rows returned (if the statement has a RETURNING
    clause), the tables and the sequence after [q]; [None] when the
    server raises. *)
Definition run (q : Query) (t : Pg.Tables) (seq : Z)
  : option (option (list Row) * Pg.Tables * Z) :=
  match q with
  | InsertInvoice customer =>
      let rows := new_invoices seq (matching customer t) in
      Some (Some (map (fun i => [Pg.invoice_id i]) rows),
            Pg.add_invoices t rows,
            seq + Z.of_nat (List.length rows))
  | InsertItem name invoice_id =>
      let row := Pg.mkItem name invoice_id in
      if item_constraint t row
      then Some (None, Pg.add_items t [row], seq)
      else None
  end.

(** ** psycopg2 *)

Definition send (m : Message) (c : Connection) : Connection :=
  mkConnection (durable c) (pending c) (status c) (invoices_id_seq c)
               (wire c ++ [m]).

(** With autocommit off, the first [execute] on an idle connection opens
    a transaction. *)
Definition begin (c : Connection) : Connection :=
  mkConnection (durable c) (durable c) INTRANS (invoices_id_seq c)
               (wire c ++ [Begin]).

Definition started (c : Connection) : Connection :=
  match status c with
  | IDLE => begin c
  | _ => c
  end.

(** What [started] sends. *)
Definition opening (c : Connection) : list Message :=
  match status c with
  | IDLE => [Begin]
  | _ => []
  end.



Record Cursor := mkCursor {
  results : option (list Row);
  closed : bool
}.

(** [conn.cursor()] *)
Definition cursor : Cursor := mkCursor None false.

(** Binding the parameters of a statement fails on a string that holds
    NUL. *)
Definition unbindable (q : Query) : bool :=
  match q with
  | InsertInvoice customer => has_nul customer
  | InsertItem name _ => has_nul name
  end.

(** [cur.execute(sql, params)]: the parameters are bound first, on the
    client; only then is a transaction opened, if none is, and the
    statement sent. *)
Definition cursor_execute (cur : Cursor) (q : Query) : Py Cursor :=
  fun c =>
    if closed cur then (Raised InterfaceError, c) else
    if unbindable q then (Raised ValueError, c) else
    let c := send (Exec q) (started c) in
    match status c with
    | INERROR => (Raised InFailedSqlTransaction, c)
    | _ =>
        match run q (pending c) (invoices_id_seq c) with
        | Some (rows, t, seq) =>
            (Returned (mkCursor rows false),
             mkConnection (durable c) t INTRANS seq (wire c))
        | None =>
            (* the transaction is aborted: what it wrote is dead *)
            (Raised IntegrityError,
             mkConnection (durable c) (durable c) INERROR
                          (invoices_id_seq c) (wire c))
        end
    end.

(** [cur.fetchone()]: the next row, or Python's [None] when the result
    set is exhausted. *)
Definition cursor_fetchone (cur : Cursor) : Py (option Row * Cursor) :=
  if closed cur then raise InterfaceError else
  match results cur with
  | None => raise ProgrammingError
  | Some [] => ret (None, cur)
  | Some (r :: rest) => ret (Some r, mkCursor (Some rest) false)
  end.

(** [row[0]] on what [fetchone] returned. *)
Definition getitem0 (row : option Row) : Py Z :=
  match row with
  | None => raise TypeError
  | Some [] => raise IndexError
  | Some (z :: _) => ret z
  end.

(** [cursor.__exit__]: closes the cursor and lets an exception through.
    It sends nothing: in psycopg2 leaving a cursor's [with] block does not
    touch the transaction (only a connection's [with] block commits or
    rolls back). *)
Definition cursor_exit (cur : Cursor) : Cursor := mkCursor (results cur) true.

(** [with conn.cursor() as cur: body] *)
Definition with_cursor {A} (body : Cursor -> Py (A * Cursor)) : Py A :=
  fun c =>
    match body cursor c with
    | (Returned (a, cur), c') => let _ := cursor_exit cur in (Returned a, c')
    | (Raised e, c') => (Raised e, c')
    end.

(** ** data.py *)

(** [for item in items: cur.execute(sql, (item, invoice_id))] *)
Fixpoint insert_items (cur : Cursor) (invoice_id : Z) (items : list string)
  : Py Cursor :=
  match items with
  | [] => ret cur
  | item :: rest =>
      cur <- cursor_execute cur (InsertItem item invoice_id) ;;
      insert_items cur invoice_id rest
  end.

Definition record_sale (customer : string) (items : list string) : Py PyValue :=
  _ <- with_cursor (fun cur =>
         cur <- cursor_execute cur (InsertInvoice customer) ;;
         r <- cursor_fetchone cur ;;
         invoice_id <- getitem0 (fst r) ;;
         cur <- insert_items (snd r) invoice_id items ;;
         ret (tt, cur)) ;;
  (* no return statement *)
  ret PyNone.

End Store.

(** ** Vocabulary of the statements below *)

(** The row and the message of one pass of the loop. *)
Definition item_for (invoice_id : Z) (name : string) : Pg.Item :=
  Pg.mkItem name invoice_id.

Definition item_message (invoice_id : Z) (name : string) : Message :=
  Exec (InsertItem name invoice_id).

(** The connection after the first [execute] of [record_sale], when the
    transaction is not aborted. *)
Definition after_invoice (customer : string) (c : Connection) : Connection :=
  let rows := new_invoices (invoices_id_seq c) (matching customer (view c)) in
  mkConnection (durable c) (Pg.add_invoices (view c) rows) INTRANS
               (invoices_id_seq c + Z.of_nat (List.length rows))
               (wire c ++ opening c ++ [Exec (InsertInvoice customer)]).

(** No COMMIT and no ROLLBACK among the messages. *)
Definition no_tx_end (sent : list Message) : bool :=
  forallb (fun m => negb (is_tx_end m)) sent.

(** Every insert of the loop goes through when it is made: the name can
    be bound and the server takes the row, given the rows before it. *)
Fixpoint accepted (item_constraint : Pg.Tables -> Pg.Item -> bool)
         (t : Pg.Tables) (invoice_id : Z) (items : list string) : bool :=
  match items with
  | [] => true
  | name :: rest =>
      negb (has_nul name) &&
      item_constraint t (item_for invoice_id name) &&
      accepted item_constraint (Pg.add_items t [item_for invoice_id name])
               invoice_id rest
  end.

(** Two connections that differ at most by the messages sent so far. *)
Definition same_session (c d : Connection) : Prop :=
  durable c = durable d /\
  pending c = pending d /\
  status c = status d /\
  invoices_id_seq c = invoices_id_seq d.

(** ** A concrete shop *)

Definition nonempty_name (_ : Pg.Tables) (i : Pg.Item) : bool :=
  negb (String.eqb (Pg.item_name i) EmptyString).

(** A store that also checks the foreign key of an item row. *)
Definition named_and_owned (t : Pg.Tables) (i : Pg.Item) : bool :=
  negb (String.eqb (Pg.item_name i) EmptyString) &&
  existsb (fun inv => Pg.invoice_id inv =? Pg.item_invoice_id i) (Pg.invoices t).

(** Names with a NUL inside. *)
Definition a_nul_b : string := String "a"%char (String Ascii.zero "b").

Definition ma_nul_ry : string := String "M"%char (String "a"%char (String Ascii.zero "ry")).

Definition mary_only : Pg.Tables :=
  Pg.mkTables [Pg.mkCustomer 7 "Mary" eq_refl] [] [].

(** A fresh connection to a store that knows Mary. *)
Definition shop : Connection := mkConnection mary_only mary_only IDLE 1 [].

(** The same with a second customer whose name is the empty string. *)
Definition shop_blank : Connection :=
  let t := Pg.mkTables [Pg.mkCustomer 7 "Mary" eq_refl; Pg.mkCustomer 8 EmptyString eq_refl] [] [] in
  mkConnection t t IDLE 1 [].

(** A fresh connection to a store with two customers of the same name. *)
Definition two_marys : Connection :=
  let t := Pg.mkTables [Pg.mkCustomer 7 "Mary" eq_refl; Pg.mkCustomer 9 "Mary" eq_refl] [] [] in
  mkConnection t t IDLE 1 [].

(** The call at the bottom of data.py. *)
Definition main : Py PyValue :=
  record_sale nonempty_name "Mary" ["Purple Automobile"; "Yellow Automobile"]%string.

(** * Proofs *)

(** ** Small facts about the connection *)

Lemma add_invoices_nil (t : Pg.Tables) : Pg.add_invoices t [] = t.
Proof. destruct t; unfold Pg.add_invoices; simpl. now rewrite app_nil_r. Qed.

Lemma started_durable (c : Connection) : durable (started c) = durable c.
Proof. unfold started; now destruct (status c). Qed.

Lemma started_seq (c : Connection) : invoices_id_seq (started c) = invoices_id_seq c.
Proof. unfold started; now destruct (status c). Qed.

Lemma started_wire (c : Connection) : wire (started c) = wire c ++ opening c.
Proof.
  unfold started, opening; destruct (status c); simpl;
    now rewrite ?app_nil_r.
Qed.

Lemma started_not_idle (c : Connection) : status (started c) <> IDLE.
Proof. unfold started; destruct (status c) eqn:E; simpl; congruence. Qed.

Lemma started_usable (c : Connection) :
  status c <> INERROR ->
  status (started c) = INTRANS /\ pending (started c) = view c.
Proof.
  unfold started, view; destruct (status c) eqn:E; simpl; intros H;
    try congruence; now rewrite ?E.
Qed.

Lemma started_aborted (c : Connection) :
  status c = INERROR -> started c = c.
Proof. unfold started; now intros ->. Qed.

Lemma new_invoices_length (cs : list Pg.Customer) :
  forall seq, List.length (new_invoices seq cs) = List.length cs.
Proof. induction cs; simpl; intros; [reflexivity | now rewrite IHcs]. Qed.

Lemma no_tx_end_app (l1 l2 : list Message) :
  no_tx_end (l1 ++ l2) = no_tx_end l1 && no_tx_end l2.
Proof. apply forallb_app. Qed.

Lemma opening_no_tx_end (c : Connection) :
  no_tx_end (opening c) = true.
Proof. unfold opening; now destruct (status c). Qed.

(** A name that matches a stored one holds no NUL. *)
Lemma matching_text (customer : string) (t : Pg.Tables)
      (cu : Pg.Customer) (more : list Pg.Customer) :
  matching customer t = cu :: more -> has_nul customer = false.
Proof.
  intros H.
  assert (Hin : In cu (matching customer t)) by (rewrite H; now left).
  unfold matching in Hin. apply filter_In in Hin. destruct Hin as [_ Heq].
  apply String.eqb_eq in Heq. rewrite <- Heq. apply Pg.customer_name_text.
Qed.

(** ** One [execute] *)

Section Facts.

Variable item_constraint : Pg.Tables -> Pg.Item -> bool.

(** A parameter that cannot be bound: nothing is sent, nothing changes. *)
Lemma execute_nul (cur : Cursor) (q : Query) (c : Connection) :
  closed cur = false ->
  unbindable q = true ->
  cursor_execute item_constraint cur q c = (Raised ValueError, c).
Proof. intros Hc Hn. unfold cursor_execute. now rewrite Hc, Hn. Qed.

Lemma execute_invoice (customer : string) (c : Connection) :
  has_nul customer = false ->
  status c <> INERROR ->
  cursor_execute item_constraint cursor (InsertInvoice customer) c =
  (Returned (mkCursor
               (Some (map (fun i => [Pg.invoice_id i])
                          (new_invoices (invoices_id_seq c)
                                        (matching customer (view c)))))
               false),
   after_invoice customer c).
Proof.
  intros Hn H. destruct (started_usable c H) as [Hs Hp].
  unfold cursor_execute, after_invoice. simpl. rewrite Hn.
  rewrite Hs, Hp, started_durable, started_seq, started_wire.
  now rewrite <- app_assoc.
Qed.

Lemma execute_aborted (cur : Cursor) (q : Query) (c : Connection) :
  closed cur = false ->
  unbindable q = false ->
  status c = INERROR ->
  cursor_execute item_constraint cur q c =
  (Raised InFailedSqlTransaction, send (Exec q) c).
Proof.
  intros Hc Hn H. unfold cursor_execute. rewrite Hc, Hn, (started_aborted c H).
  simpl. now rewrite H.
Qed.

Lemma execute_item_accepted (cur : Cursor) (name : string) (inv : Z) (c : Connection) :
  closed cur = false ->
  has_nul name = false ->
  status c = INTRANS ->
  item_constraint (pending c) (item_for inv name) = true ->
  cursor_execute item_constraint cur (InsertItem name inv) c =
  (Returned (mkCursor None false),
   mkConnection (durable c) (Pg.add_items (pending c) [item_for inv name])
                INTRANS (invoices_id_seq c) (wire c ++ [item_message inv name])).
Proof.
  intros Hc Hn H Hok. unfold cursor_execute, started, item_for in *.
  simpl. rewrite Hc, Hn, H. simpl. rewrite H. now rewrite Hok.
Qed.

Lemma execute_item_refused (cur : Cursor) (name : string) (inv : Z) (c : Connection) :
  closed cur = false ->
  has_nul name = false ->
  status c = INTRANS ->
  item_constraint (pending c) (item_for inv name) = false ->
  cursor_execute item_constraint cur (InsertItem name inv) c =
  (Raised IntegrityError,
   mkConnection (durable c) (durable c) INERROR (invoices_id_seq c)
                (wire c ++ [item_message inv name])).
Proof.
  intros Hc Hn H Hok. unfold cursor_execute, started, item_for in *.
  simpl. rewrite Hc, Hn, H. simpl. rewrite H. now rewrite Hok.
Qed.

(** Whatever happens, one [execute] leaves the committed tables alone and
    ends no transaction; when the statement goes out, one is open
    afterwards. *)
Lemma execute_frame (cur : Cursor) (q : Query) (c : Connection) :
  forall r c', cursor_execute item_constraint cur q c = (r, c') ->
  durable c' = durable c /\
  (exists sent, wire c' = wire c ++ sent /\ no_tx_end sent = true) /\
  (status c <> IDLE -> status c' <> IDLE) /\
  (closed cur = false -> unbindable q = false -> status c' <> IDLE).
Proof.
  intros r c'. unfold cursor_execute.
  destruct (closed cur) eqn:Hc; [|destruct (unbindable q) eqn:Hq].
  - intros [= <- <-]. split; [reflexivity|]. split; [|split; [tauto|discriminate]].
    exists []. now rewrite app_nil_r.
  - intros [= <- <-]. split; [reflexivity|]. split; [|split; [tauto|discriminate]].
    exists []. now rewrite app_nil_r.
  - set (c0 := send (Exec q) (started c)).
    assert (Hd : durable c0 = durable c) by (unfold c0; simpl; apply started_durable).
    assert (Hw : wire c0 = wire c ++ (opening c ++ [Exec q])).
    { unfold c0; simpl. now rewrite started_wire, <- app_assoc. }
    assert (Hn : no_tx_end (opening c ++ [Exec q]) = true).
    { now rewrite no_tx_end_app, opening_no_tx_end. }
    assert (Hi : status c0 <> IDLE) by (unfold c0; simpl; apply started_not_idle).
    destruct (status c0) eqn:Es.
    + congruence.
    + destruct (run item_constraint q (pending c0) (invoices_id_seq c0))
        as [[[rows t] seq]|]; intros [= <- <-]; simpl;
        (split; [assumption | split; [eauto | split; congruence]]).
    + intros [= <- <-]. rewrite Es.
      split; [assumption | split; [eauto | split; congruence]].
Qed.

Lemma execute_returns_open (cur : Cursor) (q : Query) (c : Connection) :
  forall cur' c', cursor_execute item_constraint cur q c = (Returned cur', c') ->
  closed cur' = false.
Proof.
  intros cur' c'. unfold cursor_execute.
  destruct (closed cur); [discriminate|].
  destruct (unbindable q); [discriminate|].
  destruct (status (send (Exec q) (started c))); try discriminate;
    destruct (run item_constraint q _ _) as [[[rows t] seq]|]; try discriminate;
    now intros [= <- <-].
Qed.

(** ** The loop over the items *)

Lemma add_items_nil (t : Pg.Tables) : Pg.add_items t [] = t.
Proof. destruct t; unfold Pg.add_items; simpl. now rewrite app_nil_r. Qed.

Lemma add_items_cons (t : Pg.Tables) (r : Pg.Item) (rs : list Pg.Item) :
  Pg.add_items (Pg.add_items t [r]) rs = Pg.add_items t (r :: rs).
Proof. unfold Pg.add_items; simpl. now rewrite <- app_assoc. Qed.

Lemma loop_frame (inv : Z) (items : list string) :
  forall cur c r c',
  insert_items item_constraint cur inv items c = (r, c') ->
  durable c' = durable c /\
  (exists sent, wire c' = wire c ++ sent /\ no_tx_end sent = true) /\
  (status c <> IDLE -> status c' <> IDLE).
Proof.
  induction items as [|item rest IH]; simpl; intros cur c r c'.
  - intros [= <- <-]. split; [reflexivity|]. split; [|tauto].
    exists []. now rewrite app_nil_r.
  - unfold bind.
    destruct (cursor_execute item_constraint cur (InsertItem item inv) c)
      as [[cur1|e] c1] eqn:E;
      destruct (execute_frame _ _ _ _ _ E) as (Hd & (s1 & Hw & Hn) & Hs & _).
    + intros H. destruct (IH _ _ _ _ H) as (Hd' & (s2 & Hw' & Hn') & Hs').
      split; [congruence|]. split.
      * exists (s1 ++ s2). rewrite Hw', Hw, <- app_assoc, no_tx_end_app, Hn, Hn'.
        now split.
      * intros Hi. apply Hs'. now apply Hs.
    + intros [= <- <-]. split; [assumption|]. split; [eauto|].
      intros Hi. now apply Hs.
Qed.

(** A loop that runs to its end has appended one row per name, in order. *)
Lemma loop_returned (inv : Z) (items : list string) :
  forall cur c cur' c',
  closed cur = false ->
  status c = INTRANS ->
  insert_items item_constraint cur inv items c = (Returned cur', c') ->
  c' = mkConnection (durable c)
                    (Pg.add_items (pending c) (map (item_for inv) items))
                    INTRANS (invoices_id_seq c)
                    (wire c ++ map (item_message inv) items) /\
  closed cur' = false.
Proof.
  induction items as [|item rest IH]; simpl; intros cur c cur' c' Hc Hs.
  - intros [= <- <-]. split; [|assumption].
    rewrite add_items_nil, app_nil_r, <- Hs. now destruct c.
  - unfold bind. destruct (has_nul item) eqn:Hn.
    { now rewrite (execute_nul cur (InsertItem item inv) c Hc Hn). }
    destruct (item_constraint (pending c) (item_for inv item)) eqn:Hok.
    + rewrite (execute_item_accepted _ _ _ _ Hc Hn Hs Hok). intros H.
      apply IH in H; [|reflexivity|reflexivity]. simpl in H.
      destruct H as [-> H]. split; [|assumption].
      now rewrite add_items_cons, <- app_assoc.
    + rewrite (execute_item_refused _ _ _ _ Hc Hn Hs Hok). discriminate.
Qed.

(** A loop that stops does so on a name that cannot be bound, the
    transaction staying open with what was written, or on a refused row,
    the transaction being aborted. *)
Lemma loop_raised (inv : Z) (items : list string) :
  forall cur c e c',
  closed cur = false ->
  status c = INTRANS ->
  insert_items item_constraint cur inv items c = (Raised e, c') ->
  (e = IntegrityError /\ status c' = INERROR /\ pending c' = durable c) \/
  (e = ValueError /\ status c' = INTRANS /\ existsb has_nul items = true).
Proof.
  induction items as [|item rest IH]; simpl; intros cur c e c' Hc Hs.
  - discriminate.
  - unfold bind. destruct (has_nul item) eqn:Hn.
    { rewrite (execute_nul cur (InsertItem item inv) c Hc Hn).
      intros [= <- <-]. right. auto. }
    destruct (item_constraint (pending c) (item_for inv item)) eqn:Hok.
    + rewrite (execute_item_accepted _ _ _ _ Hc Hn Hs Hok). intros H.
      apply IH in H; [|reflexivity|reflexivity]. exact H.
    + rewrite (execute_item_refused _ _ _ _ Hc Hn Hs Hok).
      intros [= <- <-]. left. now simpl.
Qed.

(** The loop runs to its end exactly when every insert goes through. *)
Lemma loop_accepted (inv : Z) (items : list string) :
  forall cur c,
  closed cur = false ->
  status c = INTRANS ->
  accepted item_constraint (pending c) inv items = true <->
  exists cur' c', insert_items item_constraint cur inv items c = (Returned cur', c').
Proof.
  induction items as [|item rest IH]; simpl; intros cur c Hc Hs.
  - unfold ret. split; eauto.
  - unfold bind. destruct (has_nul item) eqn:Hn; simpl.
    { rewrite (execute_nul cur (InsertItem item inv) c Hc Hn).
      split; [discriminate | now intros (? & ? & ?)]. }
    destruct (item_constraint (pending c) (item_for inv item)) eqn:Hok; simpl.
    + rewrite (execute_item_accepted _ _ _ _ Hc Hn Hs Hok).
      match goal with
      | |- context [insert_items _ _ _ _ ?c0] =>
          exact (IH (mkCursor None false) c0 eq_refl eq_refl)
      end.
    + rewrite (execute_item_refused _ _ _ _ Hc Hn Hs Hok).
      split; [discriminate | now intros (? & ? & ?)].
Qed.

Lemma loop_app (inv : Z) (pre post : list string) :
  forall cur c,
  insert_items item_constraint cur inv (pre ++ post) c =
  (cur' <- insert_items item_constraint cur inv pre ;;
   insert_items item_constraint cur' inv post) c.
Proof.
  induction pre as [|item rest IH]; simpl; intros cur c.
  - reflexivity.
  - unfold bind.
    destruct (cursor_execute item_constraint cur (InsertItem item inv) c)
      as [[cur1|e] c1]; [now rewrite IH | reflexivity].
Qed.

(** The messages of the loop are the inserts of a prefix of the items: all
    of them when it runs to its end. *)
Lemma loop_prefix (inv : Z) (items : list string) :
  forall cur c r c',
  closed cur = false ->
  status c = INTRANS ->
  insert_items item_constraint cur inv items c = (r, c') ->
  exists k,
    (k <= List.length items)%nat /\
    wire c' = wire c ++ map (item_message inv) (firstn k items) /\
    match r with
    | Returned _ => k = List.length items
    | Raised _ => True
    end.
Proof.
  induction items as [|item rest IH]; simpl; intros cur c r c' Hc Hs.
  - intros [= <- <-]. exists 0%nat. simpl. now rewrite app_nil_r.
  - unfold bind. destruct (has_nul item) eqn:Hn.
    { rewrite (execute_nul cur (InsertItem item inv) c Hc Hn).
      intros [= <- <-]. exists 0%nat. simpl.
      split; [lia|]. split; [now rewrite app_nil_r | exact I]. }
    destruct (item_constraint (pending c) (item_for inv item)) eqn:Hok.
    + rewrite (execute_item_accepted _ _ _ _ Hc Hn Hs Hok). intros H.
      apply IH in H; [|reflexivity|reflexivity].
      destruct H as (k & Hk & Hw & Hr). exists (S k). simpl in *.
      split; [lia|]. split; [now rewrite Hw, <- app_assoc|].
      destruct r; [lia | exact I].
    + rewrite (execute_item_refused _ _ _ _ Hc Hn Hs Hok).
      intros [= <- <-]. exists 1%nat. simpl. split; [lia|]. split; [reflexivity | exact I].
Qed.

(** ** [record_sale], by the state of the connection and the lookup *)

Lemma sale_nul (customer : string) (items : list string) (c : Connection) :
  has_nul customer = true ->
  record_sale item_constraint customer items c = (Raised ValueError, c).
Proof.
  intros Hn. unfold record_sale, with_cursor, bind.
  now rewrite (execute_nul cursor (InsertInvoice customer) c eq_refl Hn).
Qed.

Lemma sale_aborted (customer : string) (items : list string) (c : Connection) :
  has_nul customer = false ->
  status c = INERROR ->
  record_sale item_constraint customer items c =
  (Raised InFailedSqlTransaction, send (Exec (InsertInvoice customer)) c).
Proof.
  intros Hn H. unfold record_sale, with_cursor, bind.
  now rewrite (execute_aborted cursor (InsertInvoice customer) c eq_refl Hn H).
Qed.

Lemma sale_no_match (customer : string) (items : list string) (c : Connection) :
  has_nul customer = false ->
  status c <> INERROR ->
  matching customer (view c) = [] ->
  record_sale item_constraint customer items c =
  (Raised TypeError, after_invoice customer c).
Proof.
  intros Hn H Hm. unfold record_sale, with_cursor, bind.
  rewrite (execute_invoice customer c Hn H), Hm. reflexivity.
Qed.

Lemma sale_match (customer : string) (items : list string) (c : Connection)
      (cu : Pg.Customer) (more : list Pg.Customer) :
  status c <> INERROR ->
  matching customer (view c) = cu :: more ->
  record_sale item_constraint customer items c =
  match insert_items item_constraint
          (mkCursor (Some (map (fun i => [Pg.invoice_id i])
                               (new_invoices (invoices_id_seq c + 1) more)))
                    false)
          (invoices_id_seq c) items (after_invoice customer c)
  with
  | (Returned _, c') => (Returned PyNone, c')
  | (Raised e, c') => (Raised e, c')
  end.
Proof.
  intros H Hm. unfold record_sale, with_cursor, bind.
  rewrite (execute_invoice customer c (matching_text _ _ _ _ Hm) H), Hm. simpl.
  destruct (insert_items _ _ _ _ _) as [[cur'|e] c']; reflexivity.
Qed.

Lemma after_invoice_one (customer : string) (c : Connection) (cu : Pg.Customer) :
  matching customer (view c) = [cu] ->
  after_invoice customer c =
  mkConnection (durable c)
               (Pg.add_invoices (view c)
                  [Pg.mkInvoice (invoices_id_seq c) (Pg.customer_id cu)])
               INTRANS (invoices_id_seq c + 1)
               (wire c ++ opening c ++ [Exec (InsertInvoice customer)]).
Proof. intros Hm. unfold after_invoice. now rewrite Hm. Qed.

Lemma after_invoice_none (customer : string) (c : Connection) :
  status c <> INERROR ->
  matching customer (view c) = [] ->
  after_invoice customer c =
  mkConnection (durable c) (view c) INTRANS (invoices_id_seq c)
               (wire c ++ opening c ++ [Exec (InsertInvoice customer)]).
Proof.
  intros H Hm. unfold after_invoice. rewrite Hm. simpl.
  now rewrite add_invoices_nil, Z.add_0_r.
Qed.

(** A call that returns was made on a usable connection and found a
    customer. *)
Lemma sale_returned_inv (customer : string) (items : list string) (c : Connection) :
  forall v c', record_sale item_constraint customer items c = (Returned v, c') ->
  status c <> INERROR /\ matching customer (view c) <> [].
Proof.
  intros v c' H.
  destruct (has_nul customer) eqn:Hn.
  { rewrite (sale_nul _ _ _ Hn) in H. discriminate. }
  split.
  - intros Hs. rewrite (sale_aborted _ _ _ Hn Hs) in H. discriminate.
  - intros Hm. destruct (status c) eqn:Es.
    + rewrite sale_no_match in H; [discriminate | assumption | congruence | assumption].
    + rewrite sale_no_match in H; [discriminate | assumption | congruence | assumption].
    + rewrite (sale_aborted _ _ _ Hn Es) in H. discriminate.
Qed.

(** The whole of a call that returns, for a name matching one customer. *)
Lemma sale_returned_one (customer : string) (items : list string) (c : Connection)
      (cu : Pg.Customer) :
  matching customer (view c) = [cu] ->
  forall v c', record_sale item_constraint customer items c = (Returned v, c') ->
  v = PyNone /\
  c' = mkConnection (durable c)
         (Pg.add_items
            (Pg.add_invoices (view c)
               [Pg.mkInvoice (invoices_id_seq c) (Pg.customer_id cu)])
            (map (item_for (invoices_id_seq c)) items))
         INTRANS (invoices_id_seq c + 1)
         (wire c ++ opening c ++
          Exec (InsertInvoice customer) :: map (item_message (invoices_id_seq c)) items).
Proof.
  intros Hm v c' H.
  destruct (sale_returned_inv _ _ _ _ _ H) as [Hs _].
  rewrite (sale_match _ _ _ _ _ Hs Hm) in H.
  destruct (insert_items _ _ _ _ _) as [[cur'|e] c1] eqn:E; [|discriminate].
  injection H as <- <-. split; [reflexivity|].
  apply loop_returned in E; [|reflexivity|reflexivity].
  destruct E as [-> _]. rewrite (after_invoice_one _ _ _ Hm). simpl.
  now rewrite <- !app_assoc.
Qed.

(** How a call can end, by the name and the state it starts from. *)
Lemma sale_cases (customer : string) (items : list string) (c : Connection) :
  (has_nul customer = true /\
   record_sale item_constraint customer items c = (Raised ValueError, c)) \/
  (has_nul customer = false /\ status c = INERROR /\
   record_sale item_constraint customer items c =
     (Raised InFailedSqlTransaction, send (Exec (InsertInvoice customer)) c)) \/
  (has_nul customer = false /\ status c <> INERROR /\
   matching customer (view c) = [] /\
   record_sale item_constraint customer items c =
     (Raised TypeError, after_invoice customer c)) \/
  (has_nul customer = false /\ status c <> INERROR /\
   matching customer (view c) <> [] /\
   exists cur r c',
     closed cur = false /\
     insert_items item_constraint cur (invoices_id_seq c) items
                  (after_invoice customer c) = (r, c') /\
     record_sale item_constraint customer items c =
       (match r with
        | Returned _ => Returned PyNone
        | Raised e => Raised e
        end, c')).
Proof.
  destruct (has_nul customer) eqn:Hn.
  { left. split; [reflexivity|]. now apply sale_nul. }
  right. destruct (status c) eqn:Es.
  3:{ left. split; [reflexivity|]. split; [reflexivity|]. now apply sale_aborted. }
  all: right.
  all: assert (Hs : status c <> INERROR) by congruence.
  all: destruct (matching customer (view c)) as [|cu more] eqn:Hm.
  all: try (left; split; [reflexivity|]; split; [congruence|];
            split; [reflexivity|]; now apply sale_no_match).
  all: right; split; [reflexivity|]; split; [congruence|]; split; [discriminate|].
  all: rewrite (sale_match _ _ _ _ _ Hs Hm).
  all: destruct (insert_items _ _ _ _ _) as [r c'] eqn:E.
  all: do 3 eexists; split; [|split; [exact E|]]; [reflexivity|].
  all: now destruct r.
Qed.

(** A call that raises: why, and where it leaves the connection. *)
Lemma sale_raised (customer : string) (items : list string) (c : Connection) :
  forall e c', record_sale item_constraint customer items c = (Raised e, c') ->
  (e = ValueError /\ has_nul customer = true /\ c' = c) \/
  (e = InFailedSqlTransaction /\ has_nul customer = false /\
   status c = INERROR /\ c' = send (Exec (InsertInvoice customer)) c) \/
  (e = TypeError /\ has_nul customer = false /\ status c <> INERROR /\
   matching customer (view c) = [] /\ c' = after_invoice customer c) \/
  (e = IntegrityError /\ has_nul customer = false /\ status c <> INERROR /\
   matching customer (view c) <> [] /\
   status c' = INERROR /\ pending c' = durable c /\ items <> []) \/
  (e = ValueError /\ has_nul customer = false /\ status c <> INERROR /\
   matching customer (view c) <> [] /\
   status c' = INTRANS /\ existsb has_nul items = true).
Proof.
  intros e c' H.
  destruct (sale_cases customer items c)
    as [(Hn & E) | [(Hn & Hs & E) | [(Hn & Hs & Hm & E)
       | (Hn & Hs & Hm & cur & r & c1 & Hc & El & E)]]];
    rewrite E in H.
  - injection H as <- <-. now left.
  - injection H as <- <-. right; left. auto.
  - injection H as <- <-. right; right; left. auto.
  - destruct r as [cur'|e1]; [discriminate|]. injection H as -> ->.
    right; right; right.
    assert (Hne : items <> []) by (intros ->; simpl in El; discriminate).
    apply loop_raised in El; [|assumption|reflexivity].
    destruct El as [(-> & Hst & Hp) | (-> & Hst & Hx)].
    + left. auto 10.
    + right. auto 10.
Qed.

(** ** The claims *)

(** C1. For a customer name matching exactly one Customer row and any
    ordered sequence of item names (the empty one included), a call of
    [record_sale] that returns has inserted, in the tables of the
    connection's transaction, exactly one Invoice row, which carries that
    customer's id, and one Item row per name, [len(items)] in all, each
    carrying the new invoice's id; the Item inserts went to the server in
    the order of [items], after the Invoice insert. *)
Theorem record_sale_inserts_invoice_and_items
        (customer : string) (items : list string) (c : Connection)
        (cu : Pg.Customer) (v : PyValue) (c' : Connection) :
  matching customer (view c) = [cu] ->
  record_sale item_constraint customer items c = (Returned v, c') ->
  let new_id := invoices_id_seq c in
  Pg.invoices (pending c') =
    Pg.invoices (view c) ++ [Pg.mkInvoice new_id (Pg.customer_id cu)] /\
  Pg.items (pending c') = Pg.items (view c) ++ map (item_for new_id) items /\
  List.length (Pg.items (pending c')) =
    (List.length (Pg.items (view c)) + List.length items)%nat /\
  Pg.customers (pending c') = Pg.customers (view c) /\
  wire c' = wire c ++ opening c ++
            Exec (InsertInvoice customer) :: map (item_message new_id) items.
Proof.
  intros Hm H new_id.
  destruct (sale_returned_one _ _ _ _ Hm _ _ H) as [_ ->]. simpl.
  repeat split; try reflexivity.
  now rewrite length_app, length_map.
Qed.

(** C8. For a customer name matching exactly one Customer row, on a
    connection whose transaction is not aborted, [record_sale] with an
    empty [items] is not rejected: it returns, having inserted exactly one
    Invoice row and no Item row, and having sent no Item insert. *)
Theorem record_sale_no_items
        (customer : string) (c : Connection) (cu : Pg.Customer) :
  status c <> INERROR ->
  matching customer (view c) = [cu] ->
  exists c',
    record_sale item_constraint customer [] c = (Returned PyNone, c') /\
    Pg.invoices (pending c') =
      Pg.invoices (view c) ++
      [Pg.mkInvoice (invoices_id_seq c) (Pg.customer_id cu)] /\
    Pg.items (pending c') = Pg.items (view c) /\
    wire c' = wire c ++ opening c ++ [Exec (InsertInvoice customer)].
Proof.
  intros Hs Hm. rewrite (sale_match _ _ _ _ _ Hs Hm). simpl.
  eexists; split; [reflexivity|].
  rewrite (after_invoice_one _ _ _ Hm). simpl. auto.
Qed.

(** C4, amended. A call of [record_sale] that returns, returns [None]:
    the function has no [return] statement, and the invoice id it
    recovered stays inside the call. *)
Theorem record_sale_returns_None
        (customer : string) (items : list string) (c : Connection)
        (v : PyValue) (c' : Connection) :
  record_sale item_constraint customer items c = (Returned v, c') ->
  v = PyNone.
Proof.
  unfold record_sale, bind.
  destruct (with_cursor _ c) as [[u|e] c1]; [|discriminate].
  unfold ret. now intros [= <- _].
Qed.

(** C9. The new invoice id is recovered by indexing what [fetchone]
    returned, unguarded: when the lookup runs (the name can be bound, the
    transaction is not aborted) and matches no customer, the INSERT returns
    an empty result set, [fetchone] yields Python's [None], indexing it
    raises the builtin [TypeError], and that is how [record_sale] ends, the
    invoice statement being the last one sent: no Item insert is
    attempted. *)
Theorem record_sale_unknown_customer_TypeError
        (customer : string) (items : list string) (c : Connection) :
  has_nul customer = false ->
  status c <> INERROR ->
  matching customer (view c) = [] ->
  exists cur1 c1,
    cursor_execute item_constraint cursor (InsertInvoice customer) c =
      (Returned cur1, c1) /\
    cursor_fetchone cur1 c1 = (Returned (None, cur1), c1) /\
    getitem0 None c1 = (Raised TypeError, c1) /\
    record_sale item_constraint customer items c = (Raised TypeError, c1) /\
    wire c1 = wire c ++ opening c ++ [Exec (InsertInvoice customer)].
Proof.
  intros Hn Hs Hm. do 2 eexists.
  split; [apply (execute_invoice customer c Hn Hs)|].
  rewrite Hm. simpl.
  split; [reflexivity|]. split; [reflexivity|].
  split; [apply (sale_no_match _ _ _ Hn Hs Hm) | reflexivity].
Qed.


(** Every call, whatever its end, leaves the committed tables as they
    were, sends neither COMMIT nor ROLLBACK and ends no transaction; it
    leaves one open as soon as the customer name can be bound. *)
Lemma record_sale_ends_no_transaction
      (customer : string) (items : list string) (c : Connection) :
  forall r c', record_sale item_constraint customer items c = (r, c') ->
  durable c' = durable c /\
  (exists sent, wire c' = wire c ++ sent /\ no_tx_end sent = true) /\
  (status c <> IDLE -> status c' <> IDLE) /\
  (has_nul customer = false -> status c' <> IDLE).
Proof.
  intros r c' H.
  assert (Hop : no_tx_end (opening c ++ [Exec (InsertInvoice customer)]) = true).
  { now rewrite no_tx_end_app, opening_no_tx_end. }
  destruct (sale_cases customer items c)
    as [(Hn & E) | [(Hn & Hs & E) | [(Hn & Hs & Hm & E)
       | (Hn & Hs & Hm & cur & r1 & c1 & Hc & El & E)]]];
    rewrite E in H; injection H as <- <-.
  - split; [reflexivity|]. split; [|split; [tauto | congruence]].
    exists []. now rewrite app_nil_r.
  - simpl. rewrite Hs. split; [reflexivity|]. split; [|split; congruence].
    now exists [Exec (InsertInvoice customer)].
  - simpl. split; [reflexivity|]. split; [eauto | split; congruence].
  - destruct (loop_frame _ _ _ _ _ _ El) as (Hd & (s2 & Hw & Hx) & Hi).
    simpl in Hd, Hw, Hi.
    assert (Hst : status c1 <> IDLE) by (apply Hi; congruence).
    split; [assumption|]. split; [|split; intros _; assumption].
    exists ((opening c ++ [Exec (InsertInvoice customer)]) ++ s2).
    rewrite Hw, <- !app_assoc, !no_tx_end_app, opening_no_tx_end, Hx.
    now split.
Qed.


(** C6. If the inserts of the first N-1 items go through (a call with
    just those returns) and the insert of the Nth fails, because its name
    cannot be bound or because the server refuses the row,
    [record_sale] raises there: [ValueError] in the first case, with
    nothing sent for the Nth item, [IntegrityError] in the second.  The
    messages sent are the invoice insert and the inserts of the items up
    to the Nth, nothing for a later item; the whole result is the one of
    the call with the list cut after the Nth item. *)
Theorem record_sale_stops_at_refused_item
        (customer : string) (pre : list string) (x : string)
        (post : list string) (c c1 : Connection) :
  record_sale item_constraint customer pre c = (Returned PyNone, c1) ->
  has_nul x = true \/
  item_constraint (pending c1) (item_for (invoices_id_seq c) x) = false ->
  exists c2,
    record_sale item_constraint customer (pre ++ x :: post) c =
      (Raised (if has_nul x then ValueError else IntegrityError), c2) /\
    wire c2 = wire c ++ opening c ++
              Exec (InsertInvoice customer) ::
              map (item_message (invoices_id_seq c))
                  (pre ++ (if has_nul x then [] else [x])) /\
    record_sale item_constraint customer (pre ++ x :: post) c =
    record_sale item_constraint customer (pre ++ [x]) c.
Proof.
  intros H Hno.
  destruct (sale_returned_inv _ _ _ _ _ H) as [Hs Hm].
  destruct (matching customer (view c)) as [|cu more] eqn:Em; [congruence|].
  clear Hm. rewrite (sale_match _ _ _ _ _ Hs Em) in H.
  destruct (insert_items _ _ _ pre _) as [[cur1|e1] c1'] eqn:E; [|discriminate].
  injection H as ->.
  pose proof E as E'.
  apply loop_returned in E'; [|reflexivity|reflexivity].
  destruct E' as [Hc1 Hcur].
  assert (Hst : status c1 = INTRANS) by now rewrite Hc1.
  assert (Hstop : forall rest,
             record_sale item_constraint customer (pre ++ x :: rest) c =
             (Raised (if has_nul x then ValueError else IntegrityError),
              if has_nul x then c1
              else mkConnection (durable c1) (durable c1) INERROR
                                (invoices_id_seq c1)
                                (wire c1 ++ [item_message (invoices_id_seq c) x]))).
  { intros rest. rewrite (sale_match _ _ _ _ _ Hs Em), loop_app.
    unfold bind at 1. rewrite E. simpl. unfold bind.
    destruct (has_nul x) eqn:Hn.
    - now rewrite (execute_nul cur1 (InsertItem x (invoices_id_seq c)) c1 Hcur Hn).
    - destruct Hno as [Hno|Hno]; [congruence|].
      now rewrite (execute_item_refused _ _ _ _ Hcur Hn Hst Hno). }
  eexists. split; [apply Hstop|]. split.
  - destruct (has_nul x); rewrite Hc1; simpl;
      now rewrite ?map_app, ?app_nil_r, <- !app_assoc.
  - now rewrite (Hstop post), (Hstop []).
Qed.

Lemma matching_customers (customer : string) (t1 t2 : Pg.Tables) :
  Pg.customers t1 = Pg.customers t2 ->
  matching customer t1 = matching customer t2.
Proof. unfold matching. now intros ->. Qed.

(** A call returns exactly when the connection is usable, the name matches
    a customer and every insert of the loop goes through. *)
Lemma sale_returns (customer : string) (items : list string) (c : Connection) :
  (exists c', record_sale item_constraint customer items c = (Returned PyNone, c'))
  <->
  status c <> INERROR /\
  matching customer (view c) <> [] /\
  accepted item_constraint (pending (after_invoice customer c))
           (invoices_id_seq c) items = true.
Proof.
  split.
  - intros [c' H]. destruct (sale_returned_inv _ _ _ _ _ H) as [Hs Hm].
    split; [assumption|]. split; [assumption|].
    destruct (matching customer (view c)) as [|cu more] eqn:Em; [congruence|].
    rewrite (sale_match _ _ _ _ _ Hs Em) in H.
    destruct (insert_items _ _ _ _ _) as [[cur'|e] c1] eqn:E; [|discriminate].
    eapply loop_accepted; [| |eauto]; reflexivity.
  - intros (Hs & Hm & Hok).
    destruct (matching customer (view c)) as [|cu more] eqn:Em; [congruence|].
    rewrite (sale_match _ _ _ _ _ Hs Em).
    match goal with
    | |- context [insert_items _ ?cur _ _ ?c0] =>
        destruct (proj1 (loop_accepted (invoices_id_seq c) items cur c0
                                       eq_refl eq_refl) Hok)
          as (cur' & c' & E)
    end.
    rewrite E. eauto.
Qed.

(** C7, amended. [record_sale] is not idempotent: for a name matching
    exactly one customer, on a usable connection, and items whose inserts
    all go through in both calls (names that can be bound, rows the server
    takes when they are inserted), two calls with the same arguments both
    return, and they leave two invoices with two different ids for that
    customer, each with its own copy of the item rows. *)
Theorem record_sale_twice_two_invoices
        (customer : string) (items : list string) (c : Connection)
        (cu : Pg.Customer) :
  status c <> INERROR ->
  matching customer (view c) = [cu] ->
  let id1 := invoices_id_seq c in
  let id2 := invoices_id_seq c + 1 in
  let t1 := Pg.add_invoices (view c) [Pg.mkInvoice id1 (Pg.customer_id cu)] in
  let t2 := Pg.add_invoices (Pg.add_items t1 (map (item_for id1) items))
                            [Pg.mkInvoice id2 (Pg.customer_id cu)] in
  accepted item_constraint t1 id1 items = true ->
  accepted item_constraint t2 id2 items = true ->
  exists c1 c2,
    record_sale item_constraint customer items c = (Returned PyNone, c1) /\
    record_sale item_constraint customer items c1 = (Returned PyNone, c2) /\
    id1 <> id2 /\
    Pg.invoices (pending c2) =
      Pg.invoices (view c) ++
      [Pg.mkInvoice id1 (Pg.customer_id cu); Pg.mkInvoice id2 (Pg.customer_id cu)] /\
    Pg.items (pending c2) =
      Pg.items (view c) ++ map (item_for id1) items ++ map (item_for id2) items.
Proof.
  intros Hs Hm id1 id2 t1 t2 Hok1 Hok2.
  assert (Hne : matching customer (view c) <> []) by (rewrite Hm; discriminate).
  destruct (proj2 (sale_returns customer items c)) as [c1 H1].
  { split; [assumption|]. split; [assumption|].
    now rewrite (after_invoice_one _ _ _ Hm). }
  destruct (sale_returned_one _ _ _ _ Hm _ _ H1) as [_ Hc1].
  assert (Hs1 : status c1 <> INERROR) by (rewrite Hc1; simpl; congruence).
  assert (Hv1 : view c1 = Pg.add_items t1 (map (item_for id1) items))
    by now rewrite Hc1.
  assert (Hq1 : invoices_id_seq c1 = id2) by now rewrite Hc1.
  assert (Hm1 : matching customer (view c1) = [cu]).
  { rewrite <- Hm. apply matching_customers. now rewrite Hv1. }
  destruct (proj2 (sale_returns customer items c1)) as [c2 H2].
  { split; [assumption|]. split; [rewrite Hm1; discriminate|].
    now rewrite (after_invoice_one _ _ _ Hm1), Hv1, Hq1. }
  destruct (sale_returned_one _ _ _ _ Hm1 _ _ H2) as [_ Hc2].
  exists c1, c2. split; [assumption|]. split; [assumption|].
  rewrite Hc2, Hv1, Hq1. simpl. split; [unfold id1, id2; lia|].
  now rewrite <- !app_assoc.
Qed.

(** C10, amended. [record_sale] checks nothing about its arguments.  The
    empty string goes to the server as the parameter of the invoice
    statement like any other name that can be bound; when it matches no
    customer, the call ends as for any other such name matching none: same
    outcome, same tables, same transaction status, same sequence. *)
Theorem record_sale_blank_customer_forwarded
        (other : string) (items : list string) (c : Connection) :
  has_nul other = false ->
  matching EmptyString (view c) = [] ->
  matching other (view c) = [] ->
  let blank := record_sale item_constraint EmptyString items c in
  let named := record_sale item_constraint other items c in
  wire (snd blank) = wire c ++ opening c ++ [Exec (InsertInvoice EmptyString)] /\
  wire (snd named) = wire c ++ opening c ++ [Exec (InsertInvoice other)] /\
  fst blank = fst named /\
  durable (snd blank) = durable (snd named) /\
  pending (snd blank) = pending (snd named) /\
  status (snd blank) = status (snd named) /\
  invoices_id_seq (snd blank) = invoices_id_seq (snd named).
Proof.
  intros Hn H0 H1 blank named. subst blank named.
  assert (Hb : has_nul EmptyString = false) by reflexivity.
  destruct (status c) eqn:Es.
  3:{ rewrite (sale_aborted _ _ _ Hb Es), (sale_aborted _ _ _ Hn Es).
      unfold opening. rewrite Es. simpl. auto 10. }
  all: assert (Hs : status c <> INERROR) by congruence.
  all: rewrite !sale_no_match by assumption.
  all: rewrite !after_invoice_none by assumption.
  all: simpl; auto 10.
Qed.

End Facts.

(** * Further properties of [record_sale] *)

Section Further.

Variable item_constraint : Pg.Tables -> Pg.Item -> bool.

Lemma execute_same (cur : Cursor) (q : Query) (c d : Connection) :
  same_session c d ->
  forall r c', cursor_execute item_constraint cur q c = (r, c') ->
  exists d', cursor_execute item_constraint cur q d = (r, d') /\
             same_session c' d'.
Proof.
  destruct c as [dc pc sc qc wc], d as [dd pd sd qd wd].
  unfold same_session; simpl. intros (-> & -> & -> & ->) r c'.
  unfold cursor_execute. destruct (closed cur); [|destruct (unbindable q)].
  - intros [= <- <-]. eexists. split; [reflexivity|]. now simpl.
  - intros [= <- <-]. eexists. split; [reflexivity|]. now simpl.
  - unfold started; destruct sd; simpl;
      try (destruct (run item_constraint q _ qd) as [[[rows t] seq]|]);
      intros [= <- <-]; eexists; (split; [reflexivity|]); now simpl.
Qed.

Lemma loop_same (inv : Z) (items : list string) :
  forall cur c d,
  same_session c d ->
  forall r c', insert_items item_constraint cur inv items c = (r, c') ->
  exists d', insert_items item_constraint cur inv items d = (r, d') /\
             same_session c' d'.
Proof.
  induction items as [|item rest IH]; simpl; intros cur c d Hcd r c'.
  - intros [= <- <-]. eexists. split; [reflexivity | assumption].
  - unfold bind.
    destruct (cursor_execute item_constraint cur (InsertItem item inv) c)
      as [[cur1|e] c1] eqn:E;
      destruct (execute_same _ _ _ _ Hcd _ _ E) as (d1 & -> & H1).
    + intros H. apply (IH _ _ _ H1 _ _ H).
    + intros [= <- <-]. eexists. split; [reflexivity | assumption].
Qed.

(** ** What a call never does, and what it always sends *)

(** X1. Whatever the connection, the customer and the items, and however
    the call ends, [record_sale] sends neither COMMIT nor ROLLBACK and
    leaves the committed tables as they were.  It leaves the connection
    inside a transaction (open or aborted); the connection is idle after
    the call only if it was idle before and the customer name could not be
    bound, nothing having been sent. *)
Theorem record_sale_never_ends_transaction
        (customer : string) (items : list string) (c : Connection) :
  let c' := snd (record_sale item_constraint customer items c) in
  durable c' = durable c /\
  (status c' = IDLE <-> status c = IDLE /\ has_nul customer = true) /\
  exists sent, wire c' = wire c ++ sent /\ ~ In Commit sent /\ ~ In Rollback sent.
Proof.
  intros c'.
  destruct (record_sale_ends_no_transaction item_constraint customer items c
              (fst (record_sale item_constraint customer items c)) c'
              (surjective_pairing _)) as (Hd & (sent & Hw & Hn) & Hi & Hb).
  split; [assumption|]. split.
  - split.
    + intros Hc'. split.
      * destruct (status c) eqn:Es; [reflexivity| |]; exfalso; apply Hi;
          congruence.
      * destruct (has_nul customer); [reflexivity|]. exfalso. now apply Hb.
    + intros [Hs Hx]. unfold c'. now rewrite (sale_nul _ _ _ _ Hx).
  - exists sent. split; [assumption|].
    unfold no_tx_end in Hn. rewrite forallb_forall in Hn.
    split; intros Hin; apply Hn in Hin; discriminate.
Qed.

(** X2. When the customer name cannot be bound, a call sends nothing.
    Otherwise its messages are: BEGIN if the connection was idle, the
    invoice insert with the customer name as given, then the inserts of
    the first k items in the order of [items], all carrying the sequence
    value the call started from; k is [len(items)] when the call
    returns. *)
Theorem record_sale_sends_prefix
        (customer : string) (items : list string) (c : Connection) :
  let r := record_sale item_constraint customer items c in
  exists k,
    (k <= List.length items)%nat /\
    wire (snd r) =
      wire c ++
      (if has_nul customer then []
       else opening c ++
            Exec (InsertInvoice customer) ::
            map (item_message (invoices_id_seq c)) (firstn k items)) /\
    match fst r with
    | Returned _ => k = List.length items
    | Raised _ => True
    end.
Proof.
  intros r. subst r.
  destruct (sale_cases item_constraint customer items c)
    as [(Hn & E) | [(Hn & Hs & E) | [(Hn & Hs & Hm & E)
       | (Hn & Hs & Hm & cur & r & c1 & Hc & El & E)]]];
    rewrite E, Hn.
  - exists 0%nat. simpl. split; [lia|]. split; [now rewrite app_nil_r | exact I].
  - exists 0%nat. simpl. unfold opening. rewrite Hs. split; [lia | now split].
  - exists 0%nat. simpl. split; [lia | now split].
  - apply loop_prefix in El; [|assumption|reflexivity].
    destruct El as (k & Hk & Hw & Hr).
    exists k. simpl. split; [assumption|]. split.
    + rewrite Hw. simpl. now rewrite <- !app_assoc.
    + now destruct r.
Qed.

(** X3. [record_sale] raises one of four exceptions and no other:
    [ValueError] when the customer name or the name of an item holds a NUL
    (in the first case nothing has changed, in the second a customer was
    found and the transaction stays open); [InFailedSqlTransaction] when
    the transaction of the connection was aborted before the call;
    [TypeError] when the name matches no customer; [IntegrityError] when a
    customer was found and an item row was refused, which needs a
    non-empty [items] and leaves the transaction aborted. *)
Theorem record_sale_error_cases
        (customer : string) (items : list string) (c : Connection)
        (e : PyError) (c' : Connection) :
  record_sale item_constraint customer items c = (Raised e, c') ->
  match e with
  | ValueError =>
      (has_nul customer = true /\ c' = c) \/
      (has_nul customer = false /\ status c <> INERROR /\
       matching customer (view c) <> [] /\
       existsb has_nul items = true /\ status c' = INTRANS)
  | InFailedSqlTransaction => has_nul customer = false /\ status c = INERROR
  | TypeError =>
      has_nul customer = false /\ status c <> INERROR /\
      matching customer (view c) = []
  | IntegrityError =>
      has_nul customer = false /\ status c <> INERROR /\
      matching customer (view c) <> [] /\
      items <> [] /\ status c' = INERROR
  | _ => False
  end.
Proof.
  intros H.
  destruct (sale_raised _ _ _ _ _ _ H)
    as [(-> & Hn & ->) | [(-> & Hn & Hs & _) | [(-> & Hn & Hs & Hm & _)
       | [(-> & Hn & Hs & Hm & Hst & _ & Hi) | (-> & Hn & Hs & Hm & Hst & Hx)]]]];
    auto 10.
Qed.

(** ** A name shared by several customers *)

(** X4. When the name matches several customers, a call that returns has
    inserted one invoice per matching customer, in their order, with
    consecutive sequence values; [fetchone] reads only the first returned
    row, so every item row of the call carries the id of the first of these
    invoices and none the id of another. *)
Theorem record_sale_shared_name
        (customer : string) (items : list string) (c : Connection)
        (cu : Pg.Customer) (more : list Pg.Customer)
        (v : PyValue) (c' : Connection) :
  matching customer (view c) = cu :: more ->
  record_sale item_constraint customer items c = (Returned v, c') ->
  let first_id := invoices_id_seq c in
  Pg.invoices (pending c') =
    Pg.invoices (view c) ++
    Pg.mkInvoice first_id (Pg.customer_id cu) :: new_invoices (first_id + 1) more /\
  map Pg.invoice_customer_id (new_invoices (first_id + 1) more) =
    map Pg.customer_id more /\
  Pg.items (pending c') = Pg.items (view c) ++ map (item_for first_id) items /\
  invoices_id_seq c' = first_id + 1 + Z.of_nat (List.length more).
Proof.
  intros Hm H first_id.
  destruct (sale_returned_inv _ _ _ _ _ _ H) as [Hs _].
  rewrite (sale_match _ _ _ _ _ _ Hs Hm) in H.
  destruct (insert_items _ _ _ _ _) as [[cur'|e] c1] eqn:E; [|discriminate].
  injection H as _ <-.
  apply loop_returned in E; [|reflexivity|reflexivity].
  destruct E as [-> _]. unfold after_invoice. rewrite Hm. simpl.
  rewrite new_invoices_length.
  repeat split; try reflexivity.
  - clear. generalize (first_id + 1). induction more as [|x l IH]; simpl; intros z;
      [reflexivity | now rewrite IH].
  - lia.
Qed.

(** ** One call after another on the same connection *)

(** X5. After a call stopped by a refused item, the connection is of no
    use to [record_sale]: the call never rolls back, so no later call
    returns, whatever its arguments.  A later call raises
    [InFailedSqlTransaction] at its first statement, or [ValueError]
    before sending anything when its customer name cannot be bound; it
    writes nothing and leaves the transaction aborted. *)
Theorem record_sale_after_refused_item
        (customer : string) (items : list string) (c c1 : Connection)
        (customer' : string) (items' : list string) :
  record_sale item_constraint customer items c = (Raised IntegrityError, c1) ->
  exists c2,
    record_sale item_constraint customer' items' c1 =
      (Raised (if has_nul customer' then ValueError else InFailedSqlTransaction),
       c2) /\
    wire c2 = wire c1 ++
              (if has_nul customer' then [] else [Exec (InsertInvoice customer')]) /\
    status c2 = INERROR /\
    durable c2 = durable c /\
    pending c2 = pending c1.
Proof.
  intros H.
  destruct (record_sale_ends_no_transaction _ _ _ _ _ _ H) as (Hd & _).
  destruct (sale_raised _ _ _ _ _ _ H)
    as [(? & _) | [(? & _) | [(? & _)
       | [(_ & _ & _ & _ & Hst & _) | (? & _)]]]]; try discriminate.
  destruct (has_nul customer') eqn:Hn.
  - exists c1. split; [apply (sale_nul _ _ _ _ Hn)|].
    rewrite app_nil_r. auto.
  - eexists. split; [apply (sale_aborted _ _ _ _ Hn Hst)|].
    simpl. auto.
Qed.

(** X6. A call that ends with [TypeError] (unknown customer) leaves the
    connection as good as before: any call made next ends as it would have
    without the failed one, with the same outcome, the same committed
    tables, the same tables in view and the same sequence; and with the
    same transaction status, unless its customer name cannot be bound
    (then it changes nothing, and the transaction the failed call opened
    stays open). *)
Theorem record_sale_after_unknown_customer
        (customer : string) (items : list string) (c c1 : Connection)
        (customer' : string) (items' : list string) :
  record_sale item_constraint customer items c = (Raised TypeError, c1) ->
  let after := record_sale item_constraint customer' items' c1 in
  let without := record_sale item_constraint customer' items' c in
  fst after = fst without /\
  durable (snd after) = durable (snd without) /\
  view (snd after) = view (snd without) /\
  invoices_id_seq (snd after) = invoices_id_seq (snd without) /\
  (has_nul customer' = false -> status (snd after) = status (snd without)).
Proof.
  intros H after without. subst after without.
  destruct (sale_raised _ _ _ _ _ _ H)
    as [(? & _) | [(? & _) | [(_ & _ & Hs & Hm & ->)
       | [(? & _) | (? & _)]]]]; try discriminate.
  rewrite (after_invoice_none _ _ Hs Hm).
  set (c1 := mkConnection _ _ _ _ _).
  assert (Hs1 : status c1 <> INERROR) by (simpl; congruence).
  assert (Hv : view c1 = view c) by reflexivity.
  destruct (has_nul customer') eqn:Hn.
  { rewrite !(sale_nul _ _ _ _ Hn). simpl. rewrite Hv.
    repeat split; try reflexivity. discriminate. }
  assert (Hsame : forall c2 d2, same_session c2 d2 ->
            durable c2 = durable d2 /\ view c2 = view d2 /\
            invoices_id_seq c2 = invoices_id_seq d2 /\
            (false = false -> status c2 = status d2)).
  { intros c2 d2 (A & B & C & D). unfold view. rewrite A, B, C. auto. }
  destruct (matching customer' (view c)) as [|cu more] eqn:Hm'.
  - rewrite !sale_no_match by (rewrite ?Hv; assumption).
    rewrite !after_invoice_none by (rewrite ?Hv; assumption).
    split; [reflexivity|]. apply Hsame. rewrite Hv. unfold same_session. simpl. auto.
  - assert (Hm1 : matching customer' (view c1) = cu :: more) by now rewrite Hv.
    rewrite (sale_match _ _ _ _ _ _ Hs1 Hm1), (sale_match _ _ _ _ _ _ Hs Hm').
    assert (Hinv : same_session (after_invoice customer' c1)
                                (after_invoice customer' c)).
    { unfold after_invoice, same_session. rewrite Hv. simpl. auto. }
    change (invoices_id_seq c1) with (invoices_id_seq c).
    destruct (insert_items _ _ _ items' (after_invoice customer' c1))
      as [r c2] eqn:E.
    destruct (loop_same _ _ _ _ _ Hinv _ _ E) as (d2 & -> & H2).
    destruct r; simpl; (split; [reflexivity | now apply Hsame]).
Qed.

(** X7. Since no call commits, successive calls share one transaction: an
    item refused in a later call aborts it, and the rows of an earlier call
    that had returned are discarded with it.  The tables are back to the
    committed ones, which no call has changed. *)
Theorem record_sale_refused_item_discards_earlier_sale
        (customer : string) (items : list string)
        (customer' : string) (items' : list string)
        (c c1 c2 : Connection) (v : PyValue) :
  record_sale item_constraint customer items c = (Returned v, c1) ->
  record_sale item_constraint customer' items' c1 = (Raised IntegrityError, c2) ->
  status c2 = INERROR /\
  view c2 = durable c /\
  durable c2 = durable c.
Proof.
  intros H1 H2.
  destruct (record_sale_ends_no_transaction _ _ _ _ _ _ H1) as (Hd1 & _).
  destruct (record_sale_ends_no_transaction _ _ _ _ _ _ H2) as (Hd2 & _).
  destruct (sale_raised _ _ _ _ _ _ H2)
    as [(? & _) | [(? & _) | [(? & _)
       | [(_ & _ & _ & _ & Hst & Hp & _) | (? & _)]]]]; try discriminate.
  split; [assumption|]. split; [|congruence].
  unfold view. rewrite Hst. congruence.
Qed.

(** ** When a call returns *)

(** X8. [record_sale] returns exactly when the transaction of the
    connection is not aborted, the name matches at least one customer and
    every insert of the loop goes through: each item name can be bound (it
    holds no NUL) and the server takes each row, given the new invoices
    and the rows inserted before it.  Nothing else about the arguments
    matters. *)
Theorem record_sale_returns_iff
        (customer : string) (items : list string) (c : Connection) :
  (exists c', record_sale item_constraint customer items c = (Returned PyNone, c'))
  <->
  status c <> INERROR /\
  matching customer (view c) <> [] /\
  accepted item_constraint
           (Pg.add_invoices (view c)
              (new_invoices (invoices_id_seq c) (matching customer (view c))))
           (invoices_id_seq c) items = true.
Proof. exact (sale_returns item_constraint customer items c). Qed.

End Further.

(** ** The claims on the shop *)

(** C5. The call at the bottom of data.py returns with the transaction
    still open: the four messages sent hold no COMMIT, the committed tables
    are those of before, the two inserted kinds of rows exist only in the
    transaction.  A call stopped by a refused item ends with the
    transaction aborted and no ROLLBACK sent.  (The comments of data.py say
    that leaving the [with] block commits; the block is the cursor's, which
    only closes the cursor.) *)
Theorem main_leaves_transaction_open :
  (exists c',
     main shop = (Returned PyNone, c') /\
     wire c' = [Begin; Exec (InsertInvoice "Mary");
                Exec (InsertItem "Purple Automobile" 1);
                Exec (InsertItem "Yellow Automobile" 1)] /\
     no_tx_end (wire c') = true /\
     status c' = INTRANS /\
     durable c' = mary_only /\
     pending c' <> durable c') /\
  (exists c',
     record_sale nonempty_name "Mary" ["Purple Automobile"; EmptyString]%string shop =
       (Raised IntegrityError, c') /\
     wire c' = [Begin; Exec (InsertInvoice "Mary");
                Exec (InsertItem "Purple Automobile" 1);
                Exec (InsertItem EmptyString 1)] /\
     no_tx_end (wire c') = true /\
     status c' = INERROR).
Proof.
  split; eexists; (split; [reflexivity|]); simpl; repeat split; discriminate.
Qed.


(** C4 as stated fails: the call at the bottom of data.py gives invoice 1
    to Mary and returns [None], not 1. *)
Lemma record_sale_does_not_return_invoice_id :
  Pg.invoices (pending (snd (main shop))) = [Pg.mkInvoice 1 7] /\
  fst (main shop) = Returned PyNone /\
  fst (main shop) <> Returned (PyInt 1).
Proof. repeat split; discriminate. Qed.

(** C7 as stated fails: Mary is a customer and the store would take the
    row, but the name of the item holds a NUL, psycopg2 cannot bind it,
    and already the first of the two calls raises. *)
Lemma record_sale_twice_fails_on_nul_item :
  matching "Mary" (view shop) = [Pg.mkCustomer 7 "Mary" eq_refl] /\
  nonempty_name (pending (after_invoice "Mary" shop)) (item_for 1 a_nul_b) = true /\
  fst (record_sale nonempty_name "Mary" [a_nul_b] shop) = Raised ValueError /\
  forall c1, record_sale nonempty_name "Mary" [a_nul_b] shop <> (Returned PyNone, c1).
Proof. repeat split; discriminate. Qed.

(** C10 as stated fails: neither the empty string nor a name with a NUL
    inside matches a customer of the shop, but the first reaches the
    server and ends in [TypeError] with a transaction open, while the
    second is stopped by psycopg2 with [ValueError], nothing sent. *)
Lemma record_sale_nul_customer_differs :
  let blank := record_sale nonempty_name EmptyString ["Purple Automobile"]%string shop in
  let named := record_sale nonempty_name ma_nul_ry ["Purple Automobile"]%string shop in
  matching EmptyString (view shop) = [] /\
  matching ma_nul_ry (view shop) = [] /\
  fst blank = Raised TypeError /\
  fst named = Raised ValueError /\
  status (snd blank) = INTRANS /\
  status (snd named) = IDLE /\
  wire (snd named) = [] /\
  fst blank <> fst named.
Proof. repeat split; discriminate. Qed.

(** No check on the name: a customer whose name is the empty string gets
    invoices like any other. *)
Example blank_customer_is_served :
  exists c',
    record_sale nonempty_name EmptyString ["Purple Automobile"]%string shop_blank =
      (Returned PyNone, c') /\
    Pg.invoices (pending c') = [Pg.mkInvoice 1 8] /\
    Pg.items (pending c') = [Pg.mkItem "Purple Automobile" 1].
Proof. eexists. split; [reflexivity|]. now simpl. Qed.

(** A name shared by two customers gets one invoice per customer; the
    items go to the first. *)
Example shared_name_two_invoices :
  let t := Pg.mkTables [Pg.mkCustomer 7 "Mary" eq_refl; Pg.mkCustomer 9 "Mary" eq_refl] [] [] in
  exists c',
    record_sale nonempty_name "Mary" ["Purple Automobile"]%string
                (mkConnection t t IDLE 1 []) = (Returned PyNone, c') /\
    Pg.invoices (pending c') = [Pg.mkInvoice 1 7; Pg.mkInvoice 2 9] /\
    Pg.items (pending c') = [Pg.mkItem "Purple Automobile" 1].
Proof. eexists. split; [reflexivity|]. now simpl. Qed.

(** A name with a NUL inside stops the call where it is bound: as the
    customer before anything is sent, as an item with the invoice and the
    items before it written and the transaction open. *)
Example nul_stops_the_call :
  record_sale nonempty_name ma_nul_ry ["Purple Automobile"]%string shop =
    (Raised ValueError, shop) /\
  exists c',
    record_sale nonempty_name "Mary" ["Purple Automobile"; a_nul_b]%string shop =
      (Raised ValueError, c') /\
    status c' = INTRANS /\
    Pg.invoices (pending c') = [Pg.mkInvoice 1 7] /\
    Pg.items (pending c') = [Pg.mkItem "Purple Automobile" 1] /\
    wire c' = [Begin; Exec (InsertInvoice "Mary");
               Exec (InsertItem "Purple Automobile" 1)].
Proof. split; [reflexivity|]. eexists. split; [reflexivity|]. now simpl. Qed.

(** *** Instances *)

Lemma record_sale_inserts_invoice_and_items_witness :
  let c' := snd (main shop) in
  matching "Mary" (view shop) = [Pg.mkCustomer 7 "Mary" eq_refl] /\
  main shop = (Returned PyNone, c') /\
  Pg.invoices (pending c') = [Pg.mkInvoice 1 7] /\
  Pg.items (pending c') =
    [Pg.mkItem "Purple Automobile" 1; Pg.mkItem "Yellow Automobile" 1] /\
  wire c' = [Begin; Exec (InsertInvoice "Mary");
             Exec (InsertItem "Purple Automobile" 1);
             Exec (InsertItem "Yellow Automobile" 1)].
Proof.
  intros c'.
  assert (Hm : matching "Mary" (view shop) = [Pg.mkCustomer 7 "Mary" eq_refl])
    by reflexivity.
  assert (H : main shop = (Returned PyNone, c')) by reflexivity.
  destruct (record_sale_inserts_invoice_and_items
              nonempty_name _ _ _ _ _ _ Hm H) as (A & B & _ & _ & E).
  split; [exact Hm|]. split; [exact H|].
  split; [exact A|]. split; [exact B | exact E].
Defined.

Lemma record_sale_no_items_witness :
  status shop <> INERROR /\
  matching "Mary" (view shop) = [Pg.mkCustomer 7 "Mary" eq_refl] /\
  exists c',
    record_sale nonempty_name "Mary" [] shop = (Returned PyNone, c') /\
    Pg.invoices (pending c') = [Pg.mkInvoice 1 7] /\
    Pg.items (pending c') = [] /\
    wire c' = [Begin; Exec (InsertInvoice "Mary")].
Proof.
  assert (Hs : status shop <> INERROR) by discriminate.
  assert (Hm : matching "Mary" (view shop) = [Pg.mkCustomer 7 "Mary" eq_refl])
    by reflexivity.
  split; [exact Hs|]. split; [exact Hm|].
  exact (record_sale_no_items nonempty_name "Mary" shop _ Hs Hm).
Defined.

Lemma record_sale_unknown_customer_TypeError_witness :
  has_nul "Bob" = false /\
  status shop <> INERROR /\
  matching "Bob" (view shop) = [] /\
  exists c1,
    record_sale nonempty_name "Bob" ["Purple Automobile"]%string shop =
      (Raised TypeError, c1) /\
    wire c1 = [Begin; Exec (InsertInvoice "Bob")].
Proof.
  assert (Hn : has_nul "Bob" = false) by reflexivity.
  assert (Hs : status shop <> INERROR) by discriminate.
  assert (Hm : matching "Bob" (view shop) = []) by reflexivity.
  split; [exact Hn|]. split; [exact Hs|]. split; [exact Hm|].
  destruct (record_sale_unknown_customer_TypeError
              nonempty_name "Bob" ["Purple Automobile"]%string shop Hn Hs Hm)
    as (cur1 & c1 & _ & _ & _ & H & W).
  exists c1. split; [exact H | exact W].
Defined.


Lemma record_sale_returns_None_witness :
  let v := match fst (main shop) with
           | Returned v => v
           | Raised _ => PyInt 0
           end in
  main shop = (Returned v, snd (main shop)) /\ v = PyNone.
Proof.
  intros v.
  assert (H : main shop = (Returned v, snd (main shop))) by reflexivity.
  split; [exact H|].
  exact (record_sale_returns_None nonempty_name _ _ _ _ _ H).
Defined.


Lemma record_sale_stops_at_refused_item_witness :
  let c1 := snd (record_sale nonempty_name "Mary" ["Purple Automobile"]%string shop) in
  record_sale nonempty_name "Mary" ["Purple Automobile"]%string shop =
    (Returned PyNone, c1) /\
  (has_nul EmptyString = true \/
   nonempty_name (pending c1) (item_for 1 EmptyString) = false) /\
  exists c2,
    record_sale nonempty_name "Mary" ["Purple Automobile"; EmptyString; "Yellow Automobile"]%string shop =
      (Raised IntegrityError, c2) /\
    wire c2 = [Begin; Exec (InsertInvoice "Mary");
               Exec (InsertItem "Purple Automobile" 1); Exec (InsertItem EmptyString 1)] /\
    record_sale nonempty_name "Mary" ["Purple Automobile"; EmptyString; "Yellow Automobile"]%string shop =
    record_sale nonempty_name "Mary" ["Purple Automobile"; EmptyString]%string shop.
Proof.
  intros c1.
  assert (H : record_sale nonempty_name "Mary" ["Purple Automobile"]%string shop =
              (Returned PyNone, c1)) by reflexivity.
  assert (Hno : has_nul EmptyString = true \/
                nonempty_name (pending c1)
                              (item_for (invoices_id_seq shop) EmptyString) = false)
    by (right; reflexivity).
  split; [exact H|]. split; [exact Hno|].
  exact (record_sale_stops_at_refused_item
           nonempty_name "Mary" ["Purple Automobile"]%string EmptyString
           ["Yellow Automobile"]%string shop c1 H Hno).
Defined.

(** The same with an item whose name cannot be bound: nothing is sent for
    it. *)
Example nul_item_stops_the_loop :
  exists c2,
    record_sale nonempty_name "Mary" ["Purple Automobile"; a_nul_b; "Yellow Automobile"]%string shop =
      (Raised ValueError, c2) /\
    wire c2 = [Begin; Exec (InsertInvoice "Mary");
               Exec (InsertItem "Purple Automobile" 1)].
Proof. eexists. split; reflexivity. Qed.

Lemma record_sale_twice_two_invoices_witness :
  let items := ["Purple Automobile"; "Yellow Automobile"]%string in
  let t1 := Pg.add_invoices (view shop) [Pg.mkInvoice 1 7] in
  let t2 := Pg.add_invoices (Pg.add_items t1 (map (item_for 1) items))
                            [Pg.mkInvoice 2 7] in
  status shop <> INERROR /\
  matching "Mary" (view shop) = [Pg.mkCustomer 7 "Mary" eq_refl] /\
  accepted named_and_owned t1 1 items = true /\
  accepted named_and_owned t2 2 items = true /\
  exists c1 c2,
    record_sale named_and_owned "Mary" items shop = (Returned PyNone, c1) /\
    record_sale named_and_owned "Mary" items c1 = (Returned PyNone, c2) /\
    1 <> 2 /\
    Pg.invoices (pending c2) = [Pg.mkInvoice 1 7; Pg.mkInvoice 2 7] /\
    Pg.items (pending c2) = map (item_for 1) items ++ map (item_for 2) items.
Proof.
  intros items t1 t2.
  assert (Hs : status shop <> INERROR) by discriminate.
  assert (Hm : matching "Mary" (view shop) = [Pg.mkCustomer 7 "Mary" eq_refl])
    by reflexivity.
  assert (Hok1 : accepted named_and_owned t1 1 items = true) by reflexivity.
  assert (Hok2 : accepted named_and_owned t2 2 items = true) by reflexivity.
  split; [exact Hs|]. split; [exact Hm|]. split; [exact Hok1|]. split; [exact Hok2|].
  exact (record_sale_twice_two_invoices named_and_owned "Mary" items shop _
           Hs Hm Hok1 Hok2).
Defined.

Lemma record_sale_blank_customer_forwarded_witness :
  let blank := record_sale nonempty_name EmptyString ["Purple Automobile"]%string shop in
  let named := record_sale nonempty_name "Bob" ["Purple Automobile"]%string shop in
  has_nul "Bob" = false /\
  matching EmptyString (view shop) = [] /\
  matching "Bob" (view shop) = [] /\
  wire (snd blank) = [Begin; Exec (InsertInvoice EmptyString)] /\
  wire (snd named) = [Begin; Exec (InsertInvoice "Bob")] /\
  fst blank = fst named /\
  durable (snd blank) = durable (snd named) /\
  pending (snd blank) = pending (snd named) /\
  status (snd blank) = status (snd named) /\
  invoices_id_seq (snd blank) = invoices_id_seq (snd named).
Proof.
  intros blank named.
  assert (Hn : has_nul "Bob" = false) by reflexivity.
  assert (H0 : matching EmptyString (view shop) = []) by reflexivity.
  assert (H1 : matching "Bob" (view shop) = []) by reflexivity.
  split; [exact Hn|]. split; [exact H0|]. split; [exact H1|].
  exact (record_sale_blank_customer_forwarded
           nonempty_name "Bob" ["Purple Automobile"]%string shop Hn H0 H1).
Defined.

(** *** Instances of the further properties *)

Lemma record_sale_error_cases_witness :
  let call := record_sale nonempty_name "Mary" ["Purple Automobile"; a_nul_b]%string in
  call shop = (Raised ValueError, snd (call shop)) /\
  ((has_nul "Mary" = true /\ snd (call shop) = shop) \/
   (has_nul "Mary" = false /\ status shop <> INERROR /\
    matching "Mary" (view shop) <> [] /\
    existsb has_nul ["Purple Automobile"; a_nul_b]%string = true /\
    status (snd (call shop)) = INTRANS)).
Proof.
  intros call.
  assert (H : call shop = (Raised ValueError, snd (call shop))) by reflexivity.
  split; [exact H|].
  exact (record_sale_error_cases nonempty_name _ _ _ _ _ H).
Defined.

Lemma record_sale_shared_name_witness :
  let call := record_sale nonempty_name "Mary" ["Purple Automobile"]%string in
  matching "Mary" (view two_marys) = [Pg.mkCustomer 7 "Mary" eq_refl; Pg.mkCustomer 9 "Mary" eq_refl] /\
  call two_marys = (Returned PyNone, snd (call two_marys)) /\
  Pg.invoices (pending (snd (call two_marys))) =
    [Pg.mkInvoice 1 7; Pg.mkInvoice 2 9] /\
  Pg.items (pending (snd (call two_marys))) = [Pg.mkItem "Purple Automobile" 1] /\
  invoices_id_seq (snd (call two_marys)) = 3.
Proof.
  intros call.
  assert (Hm : matching "Mary" (view two_marys) =
               [Pg.mkCustomer 7 "Mary" eq_refl; Pg.mkCustomer 9 "Mary" eq_refl]) by reflexivity.
  assert (H : call two_marys = (Returned PyNone, snd (call two_marys)))
    by reflexivity.
  destruct (record_sale_shared_name nonempty_name _ _ _ _ _ _ _ Hm H)
    as (A & _ & B & C).
  split; [exact Hm|]. split; [exact H|].
  split; [exact A|]. split; [exact B | exact C].
Defined.

Lemma record_sale_after_refused_item_witness :
  let c1 := snd (record_sale nonempty_name "Mary" [EmptyString] shop) in
  record_sale nonempty_name "Mary" [EmptyString] shop = (Raised IntegrityError, c1) /\
  exists c2,
    record_sale nonempty_name "Mary" ["Purple Automobile"]%string c1 =
      (Raised InFailedSqlTransaction, c2) /\
    wire c2 = wire c1 ++ [Exec (InsertInvoice "Mary")] /\
    status c2 = INERROR /\
    durable c2 = durable shop /\
    pending c2 = pending c1.
Proof.
  intros c1.
  assert (H : record_sale nonempty_name "Mary" [EmptyString] shop =
              (Raised IntegrityError, c1)) by reflexivity.
  split; [exact H|].
  exact (record_sale_after_refused_item nonempty_name _ _ _ _
           "Mary" ["Purple Automobile"]%string H).
Defined.

Lemma record_sale_after_unknown_customer_witness :
  let c1 := snd (record_sale nonempty_name "Bob" ["Purple Automobile"]%string shop) in
  let after := record_sale nonempty_name "Mary" ["Yellow Automobile"]%string c1 in
  let without := record_sale nonempty_name "Mary" ["Yellow Automobile"]%string shop in
  record_sale nonempty_name "Bob" ["Purple Automobile"]%string shop =
    (Raised TypeError, c1) /\
  fst after = fst without /\
  durable (snd after) = durable (snd without) /\
  view (snd after) = view (snd without) /\
  invoices_id_seq (snd after) = invoices_id_seq (snd without) /\
  (has_nul "Mary" = false -> status (snd after) = status (snd without)).
Proof.
  intros c1 after without.
  assert (H : record_sale nonempty_name "Bob" ["Purple Automobile"]%string shop =
              (Raised TypeError, c1)) by reflexivity.
  split; [exact H|].
  exact (record_sale_after_unknown_customer nonempty_name _ _ _ _
           "Mary" ["Yellow Automobile"]%string H).
Defined.

Lemma record_sale_refused_item_discards_earlier_sale_witness :
  let c1 := snd (main shop) in
  let c2 := snd (record_sale nonempty_name "Mary" [EmptyString] c1) in
  main shop = (Returned PyNone, c1) /\
  record_sale nonempty_name "Mary" [EmptyString] c1 = (Raised IntegrityError, c2) /\
  status c2 = INERROR /\
  view c2 = mary_only /\
  durable c2 = mary_only.
Proof.
  intros c1 c2.
  assert (H1 : main shop = (Returned PyNone, c1)) by reflexivity.
  assert (H2 : record_sale nonempty_name "Mary" [EmptyString] c1 =
               (Raised IntegrityError, c2)) by reflexivity.
  split; [exact H1|]. split; [exact H2|].
  exact (record_sale_refused_item_discards_earlier_sale
           nonempty_name _ _ _ _ _ _ _ _ H1 H2).
Defined.

Lemma record_sale_returns_iff_witness :
  let items := ["Purple Automobile"; "Yellow Automobile"]%string in
  (status shop <> INERROR /\
   matching "Mary" (view shop) <> [] /\
   accepted named_and_owned
            (Pg.add_invoices (view shop)
               (new_invoices (invoices_id_seq shop) (matching "Mary" (view shop))))
            (invoices_id_seq shop) items = true) /\
  exists c', record_sale named_and_owned "Mary" items shop = (Returned PyNone, c').
Proof.
  intros items.
  assert (H : status shop <> INERROR /\
              matching "Mary" (view shop) <> [] /\
              accepted named_and_owned
                (Pg.add_invoices (view shop)
                   (new_invoices (invoices_id_seq shop)
                                 (matching "Mary" (view shop))))
                (invoices_id_seq shop) items = true).
  { split; [discriminate|]. split; [discriminate | reflexivity]. }
  split; [exact H|].
  exact (proj2 (record_sale_returns_iff named_and_owned "Mary" items shop) H).
Defined.
